(** * Meal-plan suggestion: the ingredient normaliser and the recipe matcher

    A shallow embedding of [HomeScreen.suggestMeal] and of the closure
    [findBestMatch] it defines, together with the ECMAScript string and
    array primitives they call ([split], [trim], [toLowerCase], [filter],
    [map], [some], [includes], [sort]).

    ECMAScript strings are sequences of UTF-16 code units; they are
    modelled as lists of code units, each a number of type [N]. *)

From Stdlib Require Import String Ascii.
From Stdlib Require Import List NArith ZArith Bool Lia.
From Stdlib Require Import Permutation Sorted.
Import ListNotations.

Set Implicit Arguments.

(** ** ECMAScript strings *)

Module JS.

Definition code_unit := N.
Definition jsstring := list code_unit.

(** *** String literals

    Source literals are written as UTF-8 text in this file and turned into
    code units by decoding UTF-8 and re-encoding as UTF-16. *)

Definition cont (c : ascii) : N := N.land (N_of_ascii c) 63.

Fixpoint utf8_code_points (s : string) : list N :=
  match s with
  | EmptyString => []
  | String c0 r0 =>
    let b0 := N_of_ascii c0 in
    if (b0 <? 128)%N then b0 :: utf8_code_points r0
    else if (b0 <? 224)%N then
      match r0 with
      | String c1 r1 =>
        (N.shiftl (N.land b0 31) 6 + cont c1)%N :: utf8_code_points r1
      | EmptyString => []
      end
    else if (b0 <? 240)%N then
      match r0 with
      | String c1 (String c2 r2) =>
        (N.shiftl (N.land b0 15) 12 + N.shiftl (cont c1) 6 + cont c2)%N
          :: utf8_code_points r2
      | _ => []
      end
    else
      match r0 with
      | String c1 (String c2 (String c3 r3)) =>
        (N.shiftl (N.land b0 7) 18 + N.shiftl (cont c1) 12
           + N.shiftl (cont c2) 6 + cont c3)%N
          :: utf8_code_points r3
      | _ => []
      end
  end.

Definition utf16_units (cp : N) : list code_unit :=
  if (cp <? 65536)%N then [cp]
  else let v := (cp - 65536)%N in
       [(55296 + N.shiftr v 10)%N; (56320 + N.land v 1023)%N].

Definition lit (s : string) : jsstring :=
  flat_map utf16_units (utf8_code_points s).

(** *** Equality ([===] on strings) *)

Fixpoint eqb (s t : jsstring) : bool :=
  match s, t with
  | [], [] => true
  | a :: s', b :: t' => (a =? b)%N && eqb s' t'
  | _, _ => false
  end.

(** *** [String.prototype.includes], search from position 0 *)

Fixpoint startsWith (s t : jsstring) {struct t} : bool :=
  match t, s with
  | [], _ => true
  | _ :: _, [] => false
  | b :: t', a :: s' => (a =? b)%N && startsWith s' t'
  end.

Fixpoint includes (s t : jsstring) : bool :=
  startsWith s t ||
  match s with
  | [] => false
  | _ :: s' => includes s' t
  end.

(** *** [String.prototype.trim]

    Strips the code units of the WhiteSpace and LineTerminator productions
    from both ends. *)

Definition isWhiteSpace (c : code_unit) : bool :=
  ((9 <=? c) && (c <=? 13) || (c =? 32) || (c =? 160) || (c =? 5760)
   || (8192 <=? c) && (c <=? 8202) || (c =? 8232) || (c =? 8233)
   || (c =? 8239) || (c =? 8287) || (c =? 12288) || (c =? 65279))%N.

Fixpoint trimStart (s : jsstring) : jsstring :=
  match s with
  | [] => []
  | c :: s' => if isWhiteSpace c then trimStart s' else s
  end.

Definition trimEnd (s : jsstring) : jsstring := rev (trimStart (rev s)).

Definition trim (s : jsstring) : jsstring := trimEnd (trimStart s).

(** *** [String.prototype.split] with a one-code-unit separator

    [split_from sep cur s] carries the piece being read in [cur]. The
    result always has at least one piece: splitting the empty string yields
    one empty piece. *)

Fixpoint split_from (sep : code_unit) (cur s : jsstring) : list jsstring :=
  match s with
  | [] => [rev cur]
  | c :: s' =>
    if (c =? sep)%N then rev cur :: split_from sep [] s'
    else split_from sep (c :: cur) s'
  end.

Definition split (sep : code_unit) (s : jsstring) : list jsstring :=
  split_from sep [] s.

Definition comma : code_unit := 44%N.

(** *** A case mapping for witnesses

    [String.prototype.toLowerCase] follows the Unicode case mappings, a
    table far larger than this program. The program's functions take the
    mapping as an argument, and the theorems hold for every mapping.
    [lowerBasicLatin] maps the Basic Latin capitals and leaves every other
    code unit alone; it agrees with [toLowerCase] on strings made of Basic
    Latin and caseless scripts (kana, CJK ideographs), and instantiates the
    theorems on concrete inputs. *)

Definition lowerUnit (c : code_unit) : code_unit :=
  if ((65 <=? c) && (c <=? 90))%N then (c + 32)%N else c.

Definition lowerBasicLatin (s : jsstring) : jsstring := map lowerUnit s.

End JS.

Import JS.

(** ** Data model *)

(** [interface Recipe]: a row of the [recipes] table. *)
Record Recipe := {
  id : jsstring;
  name : jsstring;
  genre : jsstring;
  category : jsstring;
  ingredients : list jsstring;
  steps : jsstring;
  created_at : jsstring
}.

(** [interface MealPlan]: each slot is a recipe or [null]. *)
Record MealPlan := {
  mainDish : option Recipe;
  sideDish : option Recipe;
  soup : option Recipe
}.

(** [type Genre = '和食' | '洋食' | '中華'] *)
Inductive Genre := Japanese | Western | Chinese.

Definition genreLabel (g : Genre) : jsstring :=
  match g with
  | Japanese => lit "和食"
  | Western => lit "洋食"
  | Chinese => lit "中華"
  end.

(** The three category labels passed to [findBestMatch]. *)
Definition mainDishLabel : jsstring := lit "主菜".
Definition sideDishLabel : jsstring := lit "副菜".
Definition soupLabel : jsstring := lit "汁物".

(** The messages passed to [setError]. *)
Definition msgEnterIngredients : jsstring := lit "食材を入力してください".
Definition msgNoRecipes : jsstring := lit "該当するレシピが見つかりませんでした".
Definition msgFailure : jsstring := lit "エラーが発生しました".

(** ** [Array.prototype.sort]

    The comparator returns a number; a positive result puts its first
    argument after its second. The sort is stable: elements that compare
    equal keep their order. For a consistent comparator the result of a
    stable sort is determined by the input, so the insertion sort below
    stands for whichever algorithm the engine runs. *)

Section Sort.
Variable A : Type.
Variable compareFn : A -> A -> Z.

Fixpoint insert (x : A) (l : list A) : list A :=
  match l with
  | [] => [x]
  | y :: l' =>
    if (compareFn x y <=? 0)%Z then x :: l else y :: insert x l'
  end.

Definition sort (l : list A) : list A := fold_right insert [] l.
End Sort.

(** ** The normaliser and the matcher *)

(** An element of the array [scored]: [{ recipe, score: matchCount }]. *)
Record Scored := { recipe : Recipe; score : nat }.

(** [(a, b) => b.score - a.score] *)
Definition byScoreDesc (a b : Scored) : Z :=
  (Z.of_nat (score b) - Z.of_nat (score a))%Z.

Section Matcher.
Variable toLowerCase : jsstring -> jsstring.

(** [ingredients.split(',').map((i) => i.trim().toLowerCase())
      .filter((i) => i.length > 0)] *)
Definition ingredientList (ingredients : jsstring) : list jsstring :=
  filter (fun i => 0 <? length i)
         (map (fun i => toLowerCase (trim i)) (split comma ingredients)).

(** [ingredientList.some((userIng) => ing.toLowerCase().includes(userIng))] *)
Definition ingredientMatches (ingredientList : list jsstring)
           (ing : jsstring) : bool :=
  existsb (fun userIng => includes (toLowerCase ing) userIng) ingredientList.

(** [recipe.ingredients.filter(...).length] *)
Definition matchCount (ingredientList : list jsstring) (r : Recipe) : nat :=
  length (filter (ingredientMatches ingredientList) (ingredients r)).

Definition scoreRecipe (ingredientList : list jsstring) (r : Recipe)
  : Scored :=
  {| recipe := r; score := matchCount ingredientList r |}.

(** The closure [findBestMatch], with the variables it captures
    ([recipes], [ingredientList]) as arguments. *)
Definition findBestMatch (recipes : list Recipe)
           (ingredientList : list jsstring) (category' : jsstring)
  : option Recipe :=
  let categoryRecipes :=
    filter (fun r => JS.eqb (category r) category') recipes in
  let scored := map (scoreRecipe ingredientList) categoryRecipes in
  let scored := sort byScoreDesc scored in
  match scored with
  | [] => None
  | s :: _ => Some (recipe s)
  end.

(** The object literal passed to [setMealPlan]. *)
Definition selectMealPlan (recipes : list Recipe)
           (ingredientList : list jsstring) : MealPlan :=
  {| mainDish := findBestMatch recipes ingredientList mainDishLabel;
     sideDish := findBestMatch recipes ingredientList sideDishLabel;
     soup := findBestMatch recipes ingredientList soupLabel |}.
End Matcher.


(** ** [suggestMeal]: effects

    [suggestMeal] calls the state setters of the component, awaits one
    query to the recipe store, and leaves through [return], a thrown value
    or the end of its body, inside [try]/[catch]/[finally]. A run is
    modelled by the sequence of its effects and its completion. *)

(** The value of [fetchError], or the reason of a rejected promise. *)
Definition Err := jsstring.

(** What awaiting the store query gives: a rejection, or the pair
    [{ data, error }], each of which may be [null]. *)
Inductive FetchResult :=
| Rejected (reason : Err)
| Resolved (data : option (list Recipe)) (fetchError : option Err).

(** [FindBestMatchCalled] records an invocation of the closure
    [findBestMatch]; the other events are the calls the source makes. *)
Inductive Event :=
| SetLoading (b : bool)
| SetError (msg : jsstring)
| SetMealPlan (plan : option MealPlan)
| FetchRecipes (g : Genre)
| FindBestMatchCalled (category' : jsstring)
| ConsoleError (e : Err).

Inductive Completion (A : Type) :=
| Normal (a : A)
| Returned
| Threw (e : Err).

Arguments Returned {A}.
Arguments Threw {A} e.

Definition Eff (A : Type) : Type := (list Event * Completion A)%type.

Definition ret {A} (a : A) : Eff A := ([], Normal a).

Definition bind {A B} (m : Eff A) (k : A -> Eff B) : Eff B :=
  match m with
  | (t, Normal a) => let (t', c) := k a in (t ++ t', c)
  | (t, Returned) => (t, Returned)
  | (t, Threw e) => (t, Threw e)
  end.

Notation "x <- m ;; k" := (bind m (fun x => k))
  (at level 61, m at next level, right associativity).
Notation "m ;;; k" := (bind m (fun _ => k))
  (at level 61, right associativity).

Definition emit (e : Event) : Eff unit := ([e], Normal tt).
Definition return_ {A} : Eff A := ([], Returned).
Definition throw {A} (e : Err) : Eff A := ([], Threw e).

(** [try body catch (err) handler finally fin]: a thrown value runs the
    handler, whose completion replaces the body's; [fin] runs in every
    case, and when it completes normally the earlier completion stands. *)
Definition tryCatchFinally (body : Eff unit) (handler : Err -> Eff unit)
           (fin : Eff unit) : Eff unit :=
  let (t, c) :=
    match body with
    | (t, Threw e) => let (t', c') := handler e in (t ++ t', c')
    | other => other
    end in
  match fin with
  | (tf, Normal _) => (t ++ tf, c)
  | (tf, other) => (t ++ tf, other)
  end.

(** The component state written by the setters. *)
Record UIState := {
  loading : bool;
  mealPlan : option MealPlan;
  error : jsstring
}.

Definition applyEvent (st : UIState) (e : Event) : UIState :=
  match e with
  | SetLoading b =>
    {| loading := b; mealPlan := mealPlan st; error := error st |}
  | SetError m =>
    {| loading := loading st; mealPlan := mealPlan st; error := m |}
  | SetMealPlan p =>
    {| loading := loading st; mealPlan := p; error := error st |}
  | _ => st
  end.

Definition applyEvents (st : UIState) (t : list Event) : UIState :=
  fold_left applyEvent t st.

Section SuggestMeal.
Variable toLowerCase : jsstring -> jsstring.
Variable store : Genre -> FetchResult.

(** [await supabase.from('recipes').select('*').eq('genre', selectedGenre)] *)
Definition awaitRecipes (g : Genre) : Eff (option (list Recipe) * option Err) :=
  match store g with
  | Rejected reason => ([FetchRecipes g], Threw reason)
  | Resolved data fetchError => ([FetchRecipes g], Normal (data, fetchError))
  end.

Definition callFindBestMatch (recipes : list Recipe)
           (ingredientList : list jsstring) (category' : jsstring)
  : Eff (option Recipe) :=
  emit (FindBestMatchCalled category') ;;;
  ret (findBestMatch toLowerCase recipes ingredientList category').

(** [!recipes || recipes.length === 0] *)
Definition noRecipes (data : option (list Recipe)) : bool :=
  match data with
  | None => true
  | Some recipes => length recipes =? 0
  end.

(** [suggestMeal], reading the state variables [ingredients] and
    [selectedGenre] of the render it was created in. *)
Definition suggestMeal (ingredients : jsstring) (selectedGenre : Genre)
  : Eff unit :=
  emit (SetLoading true) ;;;
  emit (SetError []) ;;;
  emit (SetMealPlan None) ;;;
  tryCatchFinally
    (let ingredientList := ingredientList toLowerCase ingredients in
     if length ingredientList =? 0 then
       emit (SetError msgEnterIngredients) ;;;
       emit (SetLoading false) ;;;
       return_
     else
       response <- awaitRecipes selectedGenre ;;
       let (data, fetchError) := response in
       match fetchError with
       | Some e => throw e
       | None =>
         if noRecipes data then
           emit (SetError msgNoRecipes) ;;;
           emit (SetLoading false) ;;;
           return_
         else
           let recipes := match data with Some l => l | None => [] end in
           m <- callFindBestMatch recipes ingredientList mainDishLabel ;;
           s <- callFindBestMatch recipes ingredientList sideDishLabel ;;
           p <- callFindBestMatch recipes ingredientList soupLabel ;;
           emit (SetMealPlan
                   (Some {| mainDish := m; sideDish := s; soup := p |}))
       end)
    (fun err => emit (SetError msgFailure) ;;; emit (ConsoleError err))
    (emit (SetLoading false)).

(** The effects of one press of the button. *)
Definition trace (ingredients : jsstring) (selectedGenre : Genre)
  : list Event :=
  fst (suggestMeal ingredients selectedGenre).
End SuggestMeal.

(** ** The normaliser as the specification words it

    Split on commas, trim each piece, drop the pieces that are empty after
    trimming, lower-case what remains; the result is read as a set. *)
Definition normalize_spec (toLowerCase : jsstring -> jsstring)
           (raw : jsstring) : list jsstring :=
  map toLowerCase
      (filter (fun piece => negb (JS.eqb piece []))
              (map trim (split comma raw))).

(** Removal of repeated tokens, keeping first occurrences (the order of a
    [Set] built from the list). *)
Fixpoint dedup (l : list jsstring) : list jsstring :=
  match l with
  | [] => []
  | t :: l' => t :: filter (fun u => negb (JS.eqb u t)) (dedup l')
  end.

(** ** Specification-level notions *)

(** [t] occurs in [s] as a contiguous run of code units. *)
Definition Substring (t s : jsstring) : Prop :=
  exists pre post, s = pre ++ t ++ post.

(** Some query token occurs in the lower-cased ingredient entry. *)
Definition Matches (toLowerCase : jsstring -> jsstring)
           (query : list jsstring) (ing : jsstring) : Prop :=
  exists t, In t query /\ Substring t (toLowerCase ing).

(** [Count P l n]: exactly [n] entries of [l], counted with their
    repetitions, satisfy [P]. *)
Inductive Count (A : Type) (P : A -> Prop) : list A -> nat -> Prop :=
| Count_nil : Count P [] 0
| Count_hit x l n : P x -> Count P l n -> Count P (x :: l) (S n)
| Count_miss x l n : ~ P x -> Count P l n -> Count P (x :: l) n.

(** The pieces of [l] written one after another with [sep] between them
    ([Array.prototype.join]). *)
Fixpoint join (sep : code_unit) (l : list jsstring) : jsstring :=
  match l with
  | [] => []
  | piece :: rest =>
    match rest with
    | [] => piece
    | _ :: _ => piece ++ sep :: join sep rest
    end
  end.

(** [l'] is [l] sorted by descending score with ties left in their order:
    it is sorted, and for each score it lists the same elements in the same
    order as [l]. *)
Definition StableSortOf (l l' : list Scored) : Prop :=
  StronglySorted (fun x y => score y <= score x) l'
  /\ forall k, filter (fun x => score x =? k) l'
               = filter (fun x => score x =? k) l.

(** A recipe with its ingredient entries replaced. *)
Definition withIngredients (r : Recipe) (l : list jsstring) : Recipe :=
  {| id := id r; name := name r; genre := genre r; category := category r;
     ingredients := l; steps := steps r; created_at := created_at r |}.

(** The slots of a plan, each with the label its recipes were filtered by. *)
Definition slots (p : MealPlan) : list (jsstring * option Recipe) :=
  [(mainDishLabel, mainDish p); (sideDishLabel, sideDish p);
   (soupLabel, soup p)].

(** [r] stands in [pool] at the position after [before], has category [c],
    beats every earlier candidate and is not beaten by a later one. *)
Definition FirstBest (toLowerCase : jsstring -> jsstring)
           (pool : list Recipe) (q : list jsstring)
           (c : jsstring) (r : Recipe) : Prop :=
  exists before after,
    pool = before ++ r :: after
    /\ category r = c
    /\ (forall x, In x before -> category x = c ->
        matchCount toLowerCase q x < matchCount toLowerCase q r)
    /\ (forall x, In x after -> category x = c ->
        matchCount toLowerCase q x <= matchCount toLowerCase q r).

(** A recipe for examples: only the fields the matcher reads are filled. *)
Definition dish (category' : jsstring) (ings : list jsstring) : Recipe :=
  {| id := []; name := []; genre := genreLabel Japanese;
     category := category'; ingredients := ings; steps := [];
     created_at := [] |}.

(** ** Fixtures

    The pool and query of the end-to-end scenario, and a pool whose main
    dishes tie behind a side dish and a main dish without a match. *)

Definition porkDish : Recipe :=
  dish mainDishLabel [lit "豚肉"; lit "玉ねぎ"].
Definition chickenDish : Recipe :=
  dish mainDishLabel [lit "鶏肉"; lit "じゃがいも"].
Definition cabbageSide : Recipe :=
  dish sideDishLabel [lit "キャベツ"; lit "Onion"].
Definition tofuDish : Recipe :=
  dish mainDishLabel [lit "豆腐"].
Definition dessert : Recipe :=
  dish (lit "デザート") [lit "豚肉"; lit "じゃがいも"].

Definition scenarioPool : list Recipe := [porkDish; chickenDish].
Definition scenarioQuery : list jsstring := [lit "豚肉"; lit "じゃがいも"].
Definition tiePool : list Recipe :=
  [cabbageSide; tofuDish; chickenDish; porkDish; dessert].

Definition emptyStore (g : Genre) : FetchResult := Resolved (Some []) None.
Definition scenarioStore (g : Genre) : FetchResult :=
  Resolved (Some scenarioPool) None.

(** ** [renderRecipe] and the results block

    The elements the component returns for a plan: a [View] or [Text] with
    the name of its entry in [styles]. React drops [null] children, so the
    children of an element are the elements that are not [null]. *)

Unset Elimination Schemes.
Set Elimination Schemes.






(** A recipe with the fields the matcher does not read replaced. *)
Definition withOtherFields (id' name' genre' steps' created_at' : jsstring)
           (r : Recipe) : Recipe :=
  {| id := id'; name := name'; genre := genre'; category := category r;
     ingredients := ingredients r; steps := steps'; created_at := created_at' |}.

(** The better of the best matches of two pools, the first pool winning
    ties. *)
Definition betterOf (toLowerCase : jsstring -> jsstring)
           (q : list jsstring) (a b : option Recipe) : option Recipe :=
  match a, b with
  | Some r1, Some r2 =>
    if matchCount toLowerCase q r2 <=? matchCount toLowerCase q r1
    then Some r1 else Some r2
  | Some r1, None => Some r1
  | None, _ => b
  end.

(** Stores and inputs for examples of the failure paths. *)
Definition failingStore (g : Genre) : FetchResult :=
  Resolved None (Some (lit "permission denied")).
Definition offlineStore (g : Genre) : FetchResult :=
  Rejected (lit "Network request failed").

(** The five ways a run can go. *)
Inductive RunShape (toLowerCase : jsstring -> jsstring)
          (ingredients : jsstring) (selectedGenre : Genre)
  : FetchResult -> Eff unit -> Prop :=
| RunEmptyQuery response :
    ingredientList toLowerCase ingredients = [] ->
    RunShape toLowerCase ingredients selectedGenre response
      ([SetLoading true; SetError []; SetMealPlan None;
        SetError msgEnterIngredients; SetLoading false; SetLoading false],
       Returned)
| RunRejected reason :
    ingredientList toLowerCase ingredients <> [] ->
    RunShape toLowerCase ingredients selectedGenre (Rejected reason)
      ([SetLoading true; SetError []; SetMealPlan None;
        FetchRecipes selectedGenre;
        SetError msgFailure; ConsoleError reason; SetLoading false],
       Normal tt)
| RunFetchError data e :
    ingredientList toLowerCase ingredients <> [] ->
    RunShape toLowerCase ingredients selectedGenre (Resolved data (Some e))
      ([SetLoading true; SetError []; SetMealPlan None;
        FetchRecipes selectedGenre;
        SetError msgFailure; ConsoleError e; SetLoading false],
       Normal tt)
| RunNoRecipes data :
    ingredientList toLowerCase ingredients <> [] ->
    data = Some [] \/ data = None ->
    RunShape toLowerCase ingredients selectedGenre (Resolved data None)
      ([SetLoading true; SetError []; SetMealPlan None;
        FetchRecipes selectedGenre;
        SetError msgNoRecipes; SetLoading false; SetLoading false],
       Returned)
| RunMatched r recipes :
    ingredientList toLowerCase ingredients <> [] ->
    RunShape toLowerCase ingredients selectedGenre
      (Resolved (Some (r :: recipes)) None)
      ([SetLoading true; SetError []; SetMealPlan None;
        FetchRecipes selectedGenre;
        FindBestMatchCalled mainDishLabel;
        FindBestMatchCalled sideDishLabel;
        FindBestMatchCalled soupLabel;
        SetMealPlan
          (Some (selectMealPlan toLowerCase (r :: recipes)
                   (ingredientList toLowerCase ingredients)));
        SetLoading false],
       Normal tt).

(** * Properties *)

(** ** Strings *)

Lemma eqb_eq (s t : jsstring) : JS.eqb s t = true <-> s = t.
Proof.
  revert t; induction s as [|a s IH]; intros [|b t]; simpl;
    try (split; [discriminate | congruence]); try tauto.
  rewrite andb_true_iff, N.eqb_eq, IH.
  split; [intros [-> ->]; reflexivity | intros [= -> ->]; auto].
Qed.

Lemma eqb_refl (s : jsstring) : JS.eqb s s = true.
Proof. apply eqb_eq; reflexivity. Qed.

Lemma eqb_neq (s t : jsstring) : JS.eqb s t = false <-> s <> t.
Proof.
  rewrite <- eqb_eq. destruct (JS.eqb s t); split; congruence.
Qed.

Lemma startsWith_spec (s t : jsstring) :
  startsWith s t = true <-> exists post, s = t ++ post.
Proof.
  revert s; induction t as [|b t IH]; intros s; simpl.
  - split; [exists s; reflexivity | reflexivity].
  - destruct s as [|a s].
    + split; [discriminate | intros [post H]; discriminate].
    + rewrite andb_true_iff, N.eqb_eq, IH. split.
      * intros [-> [post ->]]. exists post; reflexivity.
      * intros [post [= -> ->]].
        split; [reflexivity | exists post; reflexivity].
Qed.

Lemma includes_spec (s t : jsstring) :
  includes s t = true <-> Substring t s.
Proof.
  unfold Substring. induction s as [|a s IH]; simpl.
  - rewrite orb_false_r, startsWith_spec. split.
    + intros [post H]. exists [], post. exact H.
    + intros [[|x pre] [post H]]; [exists post; exact H | discriminate].
  - rewrite orb_true_iff, startsWith_spec, IH. split.
    + intros [[post H] | [pre [post H]]].
      * exists [], post. exact H.
      * exists (a :: pre), post. simpl. rewrite H. reflexivity.
    + intros [[|x pre] [post H]].
      * left. exists post. exact H.
      * right. injection H as _ H. exists pre, post. exact H.
Qed.

(** *** [split]: the pieces, joined by the separator, give back the
    string, and no piece contains the separator. *)

Lemma split_from_not_nil (sep : code_unit) (cur s : jsstring) :
  split_from sep cur s <> [].
Proof.
  revert cur. induction s as [|c s IH]; intros cur; simpl.
  - discriminate.
  - destruct (c =? sep)%N; [discriminate | apply IH].
Qed.

Lemma join_cons (sep : code_unit) (piece : jsstring) (rest : list jsstring) :
  rest <> [] -> join sep (piece :: rest) = piece ++ sep :: join sep rest.
Proof. destruct rest; [congruence | reflexivity]. Qed.

Lemma join_split_from (sep : code_unit) (cur s : jsstring) :
  join sep (split_from sep cur s) = rev cur ++ s.
Proof.
  revert cur. induction s as [|c s IH]; intros cur; simpl.
  - rewrite app_nil_r. reflexivity.
  - destruct (N.eqb_spec c sep) as [-> | Hne].
    + rewrite join_cons by apply split_from_not_nil. rewrite IH. reflexivity.
    + rewrite IH. simpl. rewrite <- app_assoc. reflexivity.
Qed.

Lemma join_split (sep : code_unit) (s : jsstring) :
  join sep (split sep s) = s.
Proof. apply join_split_from. Qed.

Lemma split_from_no_sep (sep : code_unit) (cur s piece : jsstring) :
  ~ In sep cur -> In piece (split_from sep cur s) -> ~ In sep piece.
Proof.
  revert cur. induction s as [|c s IH]; intros cur Hcur; simpl.
  - intros [<- | []]. rewrite <- in_rev. exact Hcur.
  - destruct (N.eqb_spec c sep) as [-> | Hne].
    + intros [<- | H].
      * rewrite <- in_rev. exact Hcur.
      * apply (IH []); [intros [] | exact H].
    + apply IH. intros [E | H]; [congruence | exact (Hcur H)].
Qed.

Lemma split_no_sep (sep : code_unit) (s piece : jsstring) :
  In piece (split sep s) -> ~ In sep piece.
Proof. apply split_from_no_sep. intros []. Qed.

(** *** [trim]: white space is removed from both ends, and only there. *)

Lemma trimStart_decomp (s : jsstring) :
  exists ws,
    s = ws ++ trimStart s /\ Forall (fun c => isWhiteSpace c = true) ws.
Proof.
  induction s as [|c s [ws [E H]]]; simpl.
  - exists []. split; [reflexivity | constructor].
  - destruct (isWhiteSpace c) eqn:Ec.
    + exists (c :: ws). split; [simpl; congruence | constructor; assumption].
    + exists []. split; [reflexivity | constructor].
Qed.

Lemma trimStart_head (s : jsstring) (c : code_unit) :
  hd_error (trimStart s) = Some c -> isWhiteSpace c = false.
Proof.
  induction s as [|a s IH]; simpl; [discriminate|].
  destruct (isWhiteSpace a) eqn:Ea; [exact IH|].
  simpl. intros [= <-]. exact Ea.
Qed.

Lemma trimEnd_decomp (s : jsstring) :
  exists ws, s = trimEnd s ++ ws /\ Forall (fun c => isWhiteSpace c = true) ws.
Proof.
  destruct (trimStart_decomp (rev s)) as [ws [E H]].
  exists (rev ws). split.
  - unfold trimEnd. rewrite <- rev_app_distr, <- E, rev_involutive.
    reflexivity.
  - apply Forall_rev. exact H.
Qed.

Lemma trim_decomp (s : jsstring) :
  exists ws1 ws2,
    s = ws1 ++ trim s ++ ws2
    /\ Forall (fun c => isWhiteSpace c = true) ws1
    /\ Forall (fun c => isWhiteSpace c = true) ws2.
Proof.
  destruct (trimStart_decomp s) as [ws1 [E1 H1]].
  destruct (trimEnd_decomp (trimStart s)) as [ws2 [E2 H2]].
  exists ws1, ws2. unfold trim. rewrite <- E2. auto.
Qed.

Lemma trim_first (s : jsstring) (c : code_unit) :
  hd_error (trim s) = Some c -> isWhiteSpace c = false.
Proof.
  destruct (trimEnd_decomp (trimStart s)) as [ws [E _]].
  unfold trim. intros H. apply (trimStart_head s).
  rewrite E. destruct (trimEnd (trimStart s)); [discriminate | exact H].
Qed.

Lemma trim_last (s : jsstring) (c : code_unit) :
  hd_error (rev (trim s)) = Some c -> isWhiteSpace c = false.
Proof.
  unfold trim, trimEnd. rewrite rev_involutive. apply trimStart_head.
Qed.

Lemma lowerBasicLatin_nil (s : jsstring) : lowerBasicLatin s = [] <-> s = [].
Proof. destruct s; simpl; split; congruence. Qed.

(** ** Normalisation *)

Section NormaliserFacts.
Variable toLowerCase : jsstring -> jsstring.

Lemma length_pos_nonempty (s : jsstring) :
  (0 <? length s) = negb (JS.eqb s []).
Proof. destruct s; reflexivity. Qed.

Lemma In_ingredientList (raw t : jsstring) :
  In t (ingredientList toLowerCase raw) <->
  t <> [] /\ exists piece, In piece (split comma raw)
                           /\ t = toLowerCase (trim piece).
Proof.
  unfold ingredientList. rewrite filter_In, in_map_iff. split.
  - intros [[piece [<- Hin]] Hlen]. split.
    + intros E. rewrite E in Hlen. discriminate.
    + exists piece. auto.
  - intros [Hne [piece [Hin ->]]]. split.
    + exists piece. auto.
    + destruct (toLowerCase (trim piece)); [congruence | reflexivity].
Qed.

(** C5: for a case mapping that sends the empty string, and no other, to
    the empty string, [ingredientList] is the normaliser of the
    specification: split on commas, trim each piece, drop the pieces that
    are empty after trimming, lower-case the rest. Its tokens are the
    non-empty strings [toLowerCase (trim piece)] for the comma-separated
    pieces of the input. With the case mapping fixing ["豚肉"] and sending
    ["ONION"] to ["onion"], the input [" 豚肉 , ,ONION "] gives
    ["豚肉"] and ["onion"] and nothing else. *)
Theorem C5_normalisation_splits_trims_lowercases :
  (forall s, toLowerCase s = [] <-> s = []) ->
  toLowerCase (lit "豚肉") = lit "豚肉" ->
  toLowerCase (lit "ONION") = lit "onion" ->
  (forall raw,
      ingredientList toLowerCase raw = normalize_spec toLowerCase raw)
  /\ (forall raw t,
        In t (ingredientList toLowerCase raw) <->
        t <> [] /\ exists piece, In piece (split comma raw)
                                 /\ t = toLowerCase (trim piece))
  /\ ingredientList toLowerCase (lit " 豚肉 , ,ONION ")
     = [lit "豚肉"; lit "onion"]
  /\ (forall t, In t (ingredientList toLowerCase (lit " 豚肉 , ,ONION "))
                <-> t = lit "豚肉" \/ t = lit "onion").
Proof.
  intros Hnil Hpork Honion.
  assert (Hex : ingredientList toLowerCase (lit " 豚肉 , ,ONION ")
                = [lit "豚肉"; lit "onion"]).
  { unfold ingredientList.
    replace (split comma (lit " 豚肉 , ,ONION "))
      with [lit " 豚肉 "; lit " "; lit "ONION "] by reflexivity.
    simpl map.
    replace (trim (lit " 豚肉 ")) with (lit "豚肉") by reflexivity.
    replace (trim (lit " ")) with (@nil code_unit) by reflexivity.
    replace (trim (lit "ONION ")) with (lit "ONION") by reflexivity.
    rewrite Hpork, Honion, (proj2 (Hnil []) eq_refl). reflexivity. }
  split; [|split; [|split]].
  - intros raw. unfold ingredientList, normalize_spec.
    induction (split comma raw) as [|piece l IH]; [reflexivity|].
    simpl. rewrite length_pos_nonempty, IH.
    destruct (trim piece) as [|c s] eqn:Et.
    + rewrite (proj2 (Hnil []) eq_refl). reflexivity.
    + destruct (toLowerCase (c :: s)) as [|c' s'] eqn:El.
      * apply (proj1 (Hnil _)) in El. discriminate.
      * simpl. rewrite El. reflexivity.
  - apply In_ingredientList.
  - exact Hex.
  - intros t. rewrite Hex. simpl. intuition.
Qed.

End NormaliserFacts.

(** ** Scoring *)

Section ScoreFacts.
Variable toLowerCase : jsstring -> jsstring.

Lemma ingredientMatches_spec (q : list jsstring) (ing : jsstring) :
  ingredientMatches toLowerCase q ing = true <-> Matches toLowerCase q ing.
Proof.
  unfold ingredientMatches, Matches. rewrite existsb_exists.
  split; intros [t [Hin H]]; exists t; split; auto;
    apply includes_spec; exact H.
Qed.

Lemma Count_filter (A : Type) (P : A -> Prop) (f : A -> bool) (l : list A) :
  (forall x, f x = true <-> P x) -> Count P l (length (filter f l)).
Proof.
  intros Hf. induction l as [|x l IH]; simpl.
  - constructor.
  - destruct (f x) eqn:E; simpl.
    + apply Count_hit; [apply Hf; exact E | exact IH].
    + apply Count_miss; [rewrite <- Hf; congruence | exact IH].
Qed.

Lemma Count_functional (A : Type) (P : A -> Prop) (l : list A) (n m : nat) :
  Count P l n -> Count P l m -> n = m.
Proof.
  intros Hn; revert m.
  induction Hn as [|x l n Hx _ IH|x l n Hx _ IH]; intros m Hm;
    inversion Hm; subst; auto; contradiction.
Qed.

Lemma filter_length_mono (A : Type) (f g : A -> bool) (l : list A) :
  (forall x, In x l -> f x = true -> g x = true) ->
  length (filter f l) <= length (filter g l).
Proof.
  induction l as [|x l IH]; intros H; simpl; [lia|].
  assert (IH' : length (filter f l) <= length (filter g l))
    by (apply IH; intros y Hy; apply H; right; exact Hy).
  destruct (f x) eqn:Ef.
  - rewrite (H x (or_introl eq_refl) Ef). simpl. lia.
  - destruct (g x); simpl; lia.
Qed.

Lemma matchCount_app_cons (q : list jsstring) (r : Recipe)
      (l1 l2 : list jsstring) (ing : jsstring) :
  matchCount toLowerCase q (withIngredients r (l1 ++ ing :: l2)) =
  matchCount toLowerCase q (withIngredients r (l1 ++ l2))
  + (if ingredientMatches toLowerCase q ing then 1 else 0).
Proof.
  unfold matchCount; simpl. rewrite !filter_app, !length_app. simpl.
  destruct (ingredientMatches toLowerCase q ing); simpl; lia.
Qed.

(** C1: the score of a recipe is the number of its ingredient entries
    (repetitions counted) in whose lower-cased text some query token occurs
    as a substring; that number is the only one [Count] admits, it never
    exceeds the number of entries, and one more entry raises the score by at
    most one however many tokens occur in it. *)
Theorem C1_matchCount_counts_matching_entries
        (q : list jsstring) (r : Recipe) :
  Count (Matches toLowerCase q) (ingredients r) (matchCount toLowerCase q r)
  /\ (forall n, Count (Matches toLowerCase q) (ingredients r) n ->
                n = matchCount toLowerCase q r)
  /\ matchCount toLowerCase q r <= length (ingredients r)
  /\ (forall l1 ing l2,
         matchCount toLowerCase q (withIngredients r (l1 ++ ing :: l2))
         <= matchCount toLowerCase q (withIngredients r (l1 ++ l2)) + 1).
Proof.
  assert (HC : Count (Matches toLowerCase q) (ingredients r)
                     (matchCount toLowerCase q r))
    by (apply Count_filter; intros ing; apply ingredientMatches_spec).
  repeat split.
  - exact HC.
  - intros n Hn. exact (Count_functional Hn HC).
  - unfold matchCount. apply filter_length_le.
  - intros l1 ing l2. rewrite matchCount_app_cons.
    destruct (ingredientMatches toLowerCase q ing); lia.
Qed.

(** C10: a query that contains every token of another scores every recipe
    at least as high. *)
Theorem C10_matchCount_monotone (q q' : list jsstring) (r : Recipe) :
  incl q q' ->
  matchCount toLowerCase q r <= matchCount toLowerCase q' r.
Proof.
  intros Hincl. unfold matchCount. apply filter_length_mono.
  intros ing _. rewrite !ingredientMatches_spec.
  intros [t [Hin H]]. exists t. split; [apply Hincl; exact Hin | exact H].
Qed.

End ScoreFacts.

(** ** Sorting by descending score *)

Lemma insert_not_nil (A : Type) (cmp : A -> A -> Z) (x : A) (l : list A) :
  insert cmp x l <> [].
Proof.
  destruct l as [|y l]; simpl; [|destruct (cmp x y <=? 0)%Z]; discriminate.
Qed.

Lemma sort_nil_inv (A : Type) (cmp : A -> A -> Z) (l : list A) :
  sort cmp l = [] -> l = [].
Proof.
  destruct l as [|x l]; [reflexivity|]. simpl. intros H.
  destruct (insert_not_nil _ _ _ H).
Qed.

(** The first element of the sorted array is the earliest element of the
    input among those of greatest score. *)
Lemma sort_head (l : list Scored) (s : Scored) (rest : list Scored) :
  sort byScoreDesc l = s :: rest ->
  exists l1 l2, l = l1 ++ s :: l2
    /\ Forall (fun x => score x < score s) l1
    /\ Forall (fun x => score x <= score s) l2.
Proof.
  revert s rest. induction l as [|a l IH]; intros s rest; simpl.
  - discriminate.
  - destruct (sort byScoreDesc l) as [|s0 rest0] eqn:E; simpl.
    + intros [= <- <-]. apply sort_nil_inv in E. subst l.
      exists [], []. repeat split; constructor.
    + destruct (IH _ _ eq_refl) as (l1 & l2 & -> & H1 & H2).
      unfold byScoreDesc at 1.
      destruct (Z.leb_spec (Z.of_nat (score s0) - Z.of_nat (score a)) 0);
        intros [= <- <-].
      * exists [], (l1 ++ s0 :: l2). repeat split; [constructor|].
        apply Forall_app. split; [|constructor].
        -- eapply Forall_impl; [|exact H1]. simpl; intros; lia.
        -- lia.
        -- eapply Forall_impl; [|exact H2]. simpl; intros; lia.
      * exists (a :: l1), l2.
        repeat split; [constructor; [lia | exact H1] | exact H2].
Qed.

Lemma filter_split (A : Type) (f : A -> bool) (l m1 m2 : list A) (x : A) :
  filter f l = m1 ++ x :: m2 ->
  exists l1 l2, l = l1 ++ x :: l2
    /\ filter f l1 = m1 /\ filter f l2 = m2 /\ f x = true.
Proof.
  revert m1. induction l as [|a l IH]; intros m1; simpl.
  - destruct m1; discriminate.
  - destruct (f a) eqn:E.
    + destruct m1 as [|b m1]; simpl.
      * intros [= -> <-]. exists [], l. auto.
      * intros [= -> H]. destruct (IH _ H) as (l1 & l2 & -> & <- & <- & Hx).
        exists (b :: l1), l2. simpl. rewrite E. auto.
    + intros H. destruct (IH _ H) as (l1 & l2 & -> & <- & <- & Hx).
      exists (a :: l1), l2. simpl. rewrite E. auto.
Qed.

(** *** The sort is the stable sort *)

Lemma insert_perm (A : Type) (cmp : A -> A -> Z) (x : A) (l : list A) :
  Permutation (x :: l) (insert cmp x l).
Proof.
  induction l as [|y l IH]; simpl; [reflexivity|].
  destruct (cmp x y <=? 0)%Z; [reflexivity|].
  rewrite perm_swap. apply perm_skip. exact IH.
Qed.

Lemma sort_perm (A : Type) (cmp : A -> A -> Z) (l : list A) :
  Permutation l (sort cmp l).
Proof.
  induction l as [|x l IH]; simpl; [reflexivity|].
  rewrite <- insert_perm. apply perm_skip. exact IH.
Qed.

Lemma filter_insert (k : nat) (a : Scored) (l : list Scored) :
  filter (fun x => score x =? k) (insert byScoreDesc a l)
  = filter (fun x => score x =? k) (a :: l).
Proof.
  induction l as [|y l IH]; [reflexivity|].
  simpl insert. unfold byScoreDesc at 1.
  destruct (Z.leb_spec (Z.of_nat (score y) - Z.of_nat (score a)) 0);
    [reflexivity|].
  simpl in *. rewrite IH.
  destruct (Nat.eqb_spec (score y) k), (Nat.eqb_spec (score a) k);
    try reflexivity; lia.
Qed.

Lemma sort_stable (k : nat) (l : list Scored) :
  filter (fun x => score x =? k) (sort byScoreDesc l)
  = filter (fun x => score x =? k) l.
Proof.
  induction l as [|a l IH]; [reflexivity|].
  simpl sort. rewrite filter_insert. simpl. rewrite IH. reflexivity.
Qed.

Lemma In_insert (a x : Scored) (l : list Scored) :
  In x (insert byScoreDesc a l) <-> x = a \/ In x l.
Proof.
  induction l as [|y l IH]; simpl.
  - intuition.
  - destruct (byScoreDesc a y <=? 0)%Z; simpl; [|rewrite IH]; intuition.
Qed.

Lemma insert_sorted (a : Scored) (l : list Scored) :
  StronglySorted (fun x y => score y <= score x) l ->
  StronglySorted (fun x y => score y <= score x) (insert byScoreDesc a l).
Proof.
  induction 1 as [|y l Hl IH Hy]; simpl.
  - repeat constructor.
  - unfold byScoreDesc at 1.
    destruct (Z.leb_spec (Z.of_nat (score y) - Z.of_nat (score a)) 0).
    + constructor; [constructor; assumption|].
      constructor; [lia|].
      eapply Forall_impl; [|exact Hy]. simpl; intros; lia.
    + constructor; [exact IH|].
      apply Forall_forall. intros x Hx. apply In_insert in Hx.
      destruct Hx as [-> | Hx]; [lia|].
      rewrite Forall_forall in Hy. apply Hy. exact Hx.
Qed.

Lemma sort_sorted (l : list Scored) :
  StronglySorted (fun x y => score y <= score x) (sort byScoreDesc l).
Proof.
  induction l as [|a l IH]; simpl; [constructor | apply insert_sorted, IH].
Qed.

Lemma sort_StableSortOf (l : list Scored) :
  StableSortOf l (sort byScoreDesc l).
Proof. split; [apply sort_sorted | intros k; apply sort_stable]. Qed.

Lemma filter_score_In (k : nat) (x : Scored) (l l' : list Scored) :
  filter (fun y => score y =? k) l = filter (fun y => score y =? k) l' ->
  score x = k -> In x l -> In x l'.
Proof.
  intros E Hk Hx.
  assert (H : In x (filter (fun y => score y =? k) l))
    by (apply filter_In; split; [exact Hx | apply Nat.eqb_eq; exact Hk]).
  rewrite E in H. apply filter_In in H. apply H.
Qed.

(** Two sorted arrays that agree score by score are the same array: a
    stable sort has one possible result. *)
Lemma sorted_stable_unique (l1 l2 : list Scored) :
  StronglySorted (fun x y => score y <= score x) l1 ->
  StronglySorted (fun x y => score y <= score x) l2 ->
  (forall k, filter (fun x => score x =? k) l1
             = filter (fun x => score x =? k) l2) ->
  l1 = l2.
Proof.
  intros H1; revert l2.
  induction H1 as [|x l1 Hs1 IH Hx]; intros l2 H2 E.
  - destruct l2 as [|y l2]; [reflexivity|].
    specialize (E (score y)). simpl in E. rewrite Nat.eqb_refl in E.
    discriminate.
  - destruct H2 as [|y l2 Hs2 Hy].
    + specialize (E (score x)). simpl in E. rewrite Nat.eqb_refl in E.
      discriminate.
    + assert (Hxy : score x = score y).
      { rewrite Forall_forall in Hx, Hy.
        assert (In x (y :: l2))
          by (apply (@filter_score_In (score x) x _ _ (E (score x)) eq_refl);
              left; reflexivity).
        assert (In y (x :: l1))
          by (apply (@filter_score_In (score y) y _ _ (eq_sym (E (score y)))
                       eq_refl);
              left; reflexivity).
        assert (score x <= score y)
          by (destruct H as [-> | H]; [lia | apply Hy; exact H]).
        assert (score y <= score x)
          by (destruct H0 as [-> | H0]; [lia | apply Hx; exact H0]).
        lia. }
      assert (Exy : x = y).
      { specialize (E (score x)). simpl in E.
        rewrite <- Hxy, Nat.eqb_refl in E. congruence. }
      subst y. f_equal. apply IH; [exact Hs2|].
      intros k. specialize (E k). simpl in E.
      destruct (score x =? k); congruence.
Qed.

Lemma stable_sort_is_sort (l l' : list Scored) :
  StableSortOf l l' -> l' = sort byScoreDesc l.
Proof.
  intros [Hs He]. apply sorted_stable_unique;
    [exact Hs | apply sort_sorted |].
  intros k. rewrite He, sort_stable. reflexivity.
Qed.

(** ** [findBestMatch] *)

Section MatcherFacts.
Variable toLowerCase : jsstring -> jsstring.

Lemma findBestMatch_Some (pool : list Recipe) (q : list jsstring)
      (c : jsstring) (r : Recipe) :
  findBestMatch toLowerCase pool q c = Some r ->
  FirstBest toLowerCase pool q c r.
Proof.
  unfold findBestMatch.
  destruct (sort byScoreDesc _) as [|s rest] eqn:E; [discriminate|].
  intros [= <-].
  destruct (sort_head _ E) as (m1 & m2 & Hmap & H1 & H2).
  apply map_eq_app in Hmap. destruct Hmap as (c1 & c2' & Hf & <- & Hc2).
  apply map_eq_cons in Hc2. destruct Hc2 as (r & c2 & -> & <- & <-).
  apply filter_split in Hf.
  destruct Hf as (before & after & -> & <- & <- & Hr).
  apply eqb_eq in Hr. simpl.
  exists before, after. repeat split; auto.
  - intros x Hx Hc. rewrite Forall_map, Forall_forall in H1.
    apply (H1 x). apply filter_In. split; [exact Hx|].
    apply eqb_eq; exact Hc.
  - intros x Hx Hc. rewrite Forall_map, Forall_forall in H2.
    apply (H2 x). apply filter_In. split; [exact Hx|].
    apply eqb_eq; exact Hc.
Qed.

Lemma findBestMatch_None (pool : list Recipe) (q : list jsstring)
      (c : jsstring) :
  findBestMatch toLowerCase pool q c = None <->
  (forall x, In x pool -> category x <> c).
Proof.
  unfold findBestMatch. split.
  - destruct (sort byScoreDesc _) as [|s rest] eqn:E; [|discriminate].
    intros _ x Hx Hc. apply sort_nil_inv in E. apply map_eq_nil in E.
    assert (Hin : In x (filter (fun r => JS.eqb (category r) c) pool))
      by (apply filter_In; split; [exact Hx | apply eqb_eq; exact Hc]).
    rewrite E in Hin. exact Hin.
  - intros H.
    assert (E : filter (fun r => JS.eqb (category r) c) pool = []).
    { induction pool as [|a pool IH]; simpl; [reflexivity|].
      destruct (JS.eqb (category a) c) eqn:Ea.
      - apply eqb_eq in Ea. destruct (H a (or_introl eq_refl) Ea).
      - apply IH. intros x Hx. apply H. right; exact Hx. }
    rewrite E. reflexivity.
Qed.

Lemma FirstBest_In (pool : list Recipe) (q : list jsstring)
      (c : jsstring) (r : Recipe) :
  FirstBest toLowerCase pool q c r -> In r pool /\ category r = c.
Proof.
  intros (before & after & -> & Hc & _). split; [|exact Hc].
  apply in_or_app. right. left. reflexivity.
Qed.

Lemma FirstBest_max (pool : list Recipe) (q : list jsstring)
      (c : jsstring) (r : Recipe) :
  FirstBest toLowerCase pool q c r ->
  forall x, In x pool -> category x = c ->
            matchCount toLowerCase q x <= matchCount toLowerCase q r.
Proof.
  intros (before & after & -> & Hc & Hb & Ha) x Hx Hxc.
  apply in_app_or in Hx. destruct Hx as [Hx | [<- | Hx]].
  - apply Nat.lt_le_incl. apply Hb; assumption.
  - apply Nat.le_refl.
  - apply Ha; assumption.
Qed.

(** A pool has at most one first-best position for a category, so equal
    positions hold the same recipe. *)
Lemma FirstBest_unique (q : list jsstring) (c : jsstring)
      (b1 a1 b2 a2 : list Recipe) (r1 r2 : Recipe) :
  b1 ++ r1 :: a1 = b2 ++ r2 :: a2 ->
  category r1 = c -> category r2 = c ->
  (forall x, In x b1 -> category x = c ->
             matchCount toLowerCase q x < matchCount toLowerCase q r1) ->
  (forall x, In x a1 -> category x = c ->
             matchCount toLowerCase q x <= matchCount toLowerCase q r1) ->
  (forall x, In x b2 -> category x = c ->
             matchCount toLowerCase q x < matchCount toLowerCase q r2) ->
  (forall x, In x a2 -> category x = c ->
             matchCount toLowerCase q x <= matchCount toLowerCase q r2) ->
  b1 = b2 /\ r1 = r2 /\ a1 = a2.
Proof.
  intros E Hc1 Hc2 Hb1 Ha1 Hb2 Ha2.
  apply app_eq_app in E. destruct E as [l [[Hb Ha] | [Hb Ha]]].
  - destruct l as [|y l]; simpl in Ha.
    + injection Ha as -> ->. rewrite app_nil_r in Hb. auto.
    + injection Ha as <- ->. subst b1.
      assert (matchCount toLowerCase q r2 < matchCount toLowerCase q r1)
        by (apply Hb1; [apply in_or_app; right; left; reflexivity | exact Hc2]).
      assert (matchCount toLowerCase q r1 <= matchCount toLowerCase q r2)
        by (apply Ha2; [apply in_or_app; right; left; reflexivity | exact Hc1]).
      lia.
  - destruct l as [|y l]; simpl in Ha.
    + injection Ha as -> ->. rewrite app_nil_r in Hb. auto.
    + injection Ha as <- ->. subst b2.
      assert (matchCount toLowerCase q r1 < matchCount toLowerCase q r2)
        by (apply Hb2; [apply in_or_app; right; left; reflexivity | exact Hc1]).
      assert (matchCount toLowerCase q r2 <= matchCount toLowerCase q r1)
        by (apply Ha1; [apply in_or_app; right; left; reflexivity | exact Hc2]).
      lia.
Qed.

Lemma slots_selectMealPlan (pool : list Recipe) (q : list jsstring)
      (label : jsstring) (res : option Recipe) :
  In (label, res) (slots (selectMealPlan toLowerCase pool q)) ->
  res = findBestMatch toLowerCase pool q label.
Proof.
  simpl. intros [[= <- <-] | [[= <- <-] | [[= <- <-] | []]]]; reflexivity.
Qed.

(** C2: a recipe placed in a slot is not beaten: no recipe of the pool with
    the slot's category scores strictly higher. It holds for every query,
    the empty one included. *)
Theorem C2_selected_score_is_maximal
        (pool : list Recipe) (q : list jsstring)
        (label : jsstring) (r : Recipe) :
  In (label, Some r) (slots (selectMealPlan toLowerCase pool q)) ->
  forall r', In r' pool -> category r' = label ->
             matchCount toLowerCase q r' <= matchCount toLowerCase q r.
Proof.
  intros Hslot. apply slots_selectMealPlan in Hslot. symmetry in Hslot.
  apply findBestMatch_Some in Hslot. exact (FirstBest_max Hslot).
Qed.

(** C3: among the recipes of a slot's category that reach the greatest
    score, the one standing earliest in the pool is selected: if [r] stands
    after [before] in the pool, no candidate of the pool scores higher than
    [r], and no candidate in [before] scores as high, the slot holds [r]. *)
Theorem C3_earliest_maximum_is_selected
        (pool : list Recipe) (q : list jsstring) (label : jsstring)
        (before after : list Recipe) (r : Recipe) :
  In label [mainDishLabel; sideDishLabel; soupLabel] ->
  pool = before ++ r :: after ->
  category r = label ->
  (forall x, In x pool -> category x = label ->
             matchCount toLowerCase q x <= matchCount toLowerCase q r) ->
  (forall x, In x before -> category x = label ->
             matchCount toLowerCase q x <> matchCount toLowerCase q r) ->
  In (label, Some r) (slots (selectMealPlan toLowerCase pool q)).
Proof.
  intros Hlabel Hpool Hc Hmax Hbefore.
  assert (Hbest : findBestMatch toLowerCase pool q label = Some r).
  { destruct (findBestMatch toLowerCase pool q label) as [r'|] eqn:E.
    - apply findBestMatch_Some in E.
      destruct E as (b' & a' & Hpool' & Hc' & Hb' & Ha').
      assert (Hsame : b' ++ r' :: a' = before ++ r :: after) by congruence.
      assert (Hb : forall x, In x before -> category x = label ->
                matchCount toLowerCase q x < matchCount toLowerCase q r).
      { intros x Hx Hxc.
        assert (matchCount toLowerCase q x <= matchCount toLowerCase q r)
          by (apply Hmax; [subst pool; apply in_or_app; left|]; assumption).
        specialize (Hbefore x Hx Hxc). lia. }
      assert (Ha : forall x, In x after -> category x = label ->
                matchCount toLowerCase q x <= matchCount toLowerCase q r).
      { intros x Hx Hxc. apply Hmax; [|exact Hxc].
        subst pool. apply in_or_app. right. right. exact Hx. }
      destruct (@FirstBest_unique q label b' a' before after r' r
                  Hsame Hc' Hc Hb' Ha' Hb Ha) as (_ & -> & _).
      reflexivity.
    - rewrite findBestMatch_None in E. exfalso. apply (E r); [|exact Hc].
      subst pool. apply in_or_app. right. left. reflexivity. }
  simpl in Hlabel. simpl. destruct Hlabel as [<- | [<- | [<- | []]]];
    rewrite Hbest; auto.
Qed.

(** C4: the matcher is a total function to plans; a slot is absent exactly
    when the pool holds no recipe of the slot's category. A category whose
    candidates all score 0 still fills its slot, with a candidate of score
    0, and the empty pool gives the plan with three absent slots. *)
Theorem C4_slot_absent_iff_category_empty
        (pool : list Recipe) (q : list jsstring) :
  (forall label res,
      In (label, res) (slots (selectMealPlan toLowerCase pool q)) ->
      (res = None <-> (forall x, In x pool -> category x <> label)))
  /\ (forall label res,
        In (label, res) (slots (selectMealPlan toLowerCase pool q)) ->
        (exists x, In x pool /\ category x = label) ->
        (forall x, In x pool -> category x = label ->
                   matchCount toLowerCase q x = 0) ->
        exists r, res = Some r /\ In r pool /\ category r = label
                  /\ matchCount toLowerCase q r = 0)
  /\ selectMealPlan toLowerCase [] q
     = {| mainDish := None; sideDish := None; soup := None |}.
Proof.
  split; [|split].
  - intros label res Hslot. apply slots_selectMealPlan in Hslot. subst res.
    apply findBestMatch_None.
  - intros label res Hslot [x [Hx Hxc]] Hzero.
    apply slots_selectMealPlan in Hslot. subst res.
    destruct (findBestMatch toLowerCase pool q label) as [r|] eqn:E.
    + apply findBestMatch_Some, FirstBest_In in E. destruct E as [Hr Hrc].
      exists r. auto.
    + rewrite findBestMatch_None in E. destruct (E x Hx Hxc).
  - reflexivity.
Qed.

(** C9: a filled slot holds a recipe of the pool whose category is exactly
    the slot's label, ['主菜'] for [mainDish], ['副菜'] for [sideDish] and
    ['汁物'] for [soup]; a recipe with any other category is in no slot. *)
Theorem C9_slot_recipe_in_pool_with_slot_category
        (pool : list Recipe) (q : list jsstring) :
  (forall r, mainDish (selectMealPlan toLowerCase pool q) = Some r ->
             In r pool /\ category r = lit "主菜")
  /\ (forall r, sideDish (selectMealPlan toLowerCase pool q) = Some r ->
                In r pool /\ category r = lit "副菜")
  /\ (forall r, soup (selectMealPlan toLowerCase pool q) = Some r ->
                In r pool /\ category r = lit "汁物")
  /\ (forall r, category r <> lit "主菜" -> category r <> lit "副菜" ->
                category r <> lit "汁物" ->
                forall label,
                  ~ In (label, Some r)
                       (slots (selectMealPlan toLowerCase pool q))).
Proof.
  split; [|split; [|split]];
    try (simpl; intros r E; apply findBestMatch_Some, FirstBest_In in E;
         exact E).
  intros r Hm Hs Hp label Hslot.
  assert (Hres := slots_selectMealPlan Hslot). symmetry in Hres.
  apply findBestMatch_Some, FirstBest_In in Hres. destruct Hres as [_ Hc].
  simpl in Hslot.
  destruct Hslot as [[= <- _] | [[= <- _] | [[= <- _] | []]]]; contradiction.
Qed.

Lemma ingredientMatches_ext (q q' : list jsstring) (ing : jsstring) :
  (forall t, In t q <-> In t q') ->
  ingredientMatches toLowerCase q ing = ingredientMatches toLowerCase q' ing.
Proof.
  intros H. apply eq_true_iff_eq. rewrite !ingredientMatches_spec.
  unfold Matches. split; intros [t [Hin Hs]]; exists t; split; auto;
    apply H; exact Hin.
Qed.

Lemma selectMealPlan_ext (pool : list Recipe) (q q' : list jsstring) :
  (forall t, In t q <-> In t q') ->
  selectMealPlan toLowerCase pool q = selectMealPlan toLowerCase pool q'.
Proof.
  intros H.
  assert (Hs : forall r, scoreRecipe toLowerCase q r
                         = scoreRecipe toLowerCase q' r).
  { intros r. unfold scoreRecipe, matchCount. f_equal. f_equal.
    apply filter_ext. intros ing. apply ingredientMatches_ext. exact H. }
  unfold selectMealPlan, findBestMatch.
  now rewrite !(map_ext _ _ Hs).
Qed.

Lemma In_dedup (q : list jsstring) (t : jsstring) :
  In t (dedup q) <-> In t q.
Proof.
  induction q as [|a q IH]; simpl; [tauto|].
  rewrite filter_In, IH, negb_true_iff, eqb_neq.
  destruct (list_eq_dec N.eq_dec a t) as [-> | Hne]; [tauto|].
  split; [tauto|]. intros [E | Hin]; [tauto|]. right. split; congruence.
Qed.

Lemma NoDup_dedup (q : list jsstring) : NoDup (dedup q).
Proof.
  induction q as [|a q IH]; simpl; constructor.
  - rewrite filter_In, negb_true_iff, eqb_neq. tauto.
  - apply NoDup_filter. exact IH.
Qed.

(** C8: repeated query tokens change nothing: the plan for a token list is
    the plan for the list with its repetitions removed (which has no
    repeated token and the same tokens). *)
Theorem C8_duplicate_tokens_do_not_change_plan
        (pool : list Recipe) (q : list jsstring) :
  selectMealPlan toLowerCase pool q
  = selectMealPlan toLowerCase pool (dedup q)
  /\ NoDup (dedup q)
  /\ (forall t, In t (dedup q) <-> In t q).
Proof.
  split; [|split].
  - apply selectMealPlan_ext. intros t. symmetry. apply In_dedup.
  - apply NoDup_dedup.
  - apply In_dedup.
Qed.

End MatcherFacts.

(** ** [suggestMeal] *)

Section SuggestMealFacts.
Variable toLowerCase : jsstring -> jsstring.
Variable store : Genre -> FetchResult.

(** C6: when no token survives normalisation, [suggestMeal] sets the
    message asking for ingredients and returns: its effects are the six
    setter calls below, so no store query is issued and [findBestMatch] is
    not called; afterwards the error is that message, no plan is shown and
    the loading flag is off. *)
Theorem C6_empty_query_aborts_before_fetch
        (ingredients : jsstring) (selectedGenre : Genre) :
  ingredientList toLowerCase ingredients = [] ->
  suggestMeal toLowerCase store ingredients selectedGenre
  = ([SetLoading true; SetError []; SetMealPlan None;
      SetError msgEnterIngredients; SetLoading false; SetLoading false],
     Returned)
  /\ (forall g, ~ In (FetchRecipes g)
                   (trace toLowerCase store ingredients selectedGenre))
  /\ (forall c, ~ In (FindBestMatchCalled c)
                   (trace toLowerCase store ingredients selectedGenre))
  /\ (forall st,
        let st' := applyEvents st
                     (trace toLowerCase store ingredients selectedGenre) in
        error st' = msgEnterIngredients
        /\ mealPlan st' = None /\ loading st' = false).
Proof.
  intros Hq.
  assert (E : suggestMeal toLowerCase store ingredients selectedGenre
              = ([SetLoading true; SetError []; SetMealPlan None;
                  SetError msgEnterIngredients; SetLoading false;
                  SetLoading false], Returned))
    by (unfold suggestMeal; rewrite Hq; reflexivity).
  unfold trace. rewrite E. simpl. repeat split.
  - intros g H. repeat (destruct H as [H | H]; [discriminate|]). exact H.
  - intros c H. repeat (destruct H as [H | H]; [discriminate|]). exact H.
Qed.

(** C7: when the query has a token and the store answers without error and
    without recipes (an empty array, or no array), [suggestMeal] sets the
    message that no recipe was found and returns: after the store query
    come only setter calls, [findBestMatch] is not called, and afterwards
    the error is that message, no plan is shown and the loading flag is
    off. *)
Theorem C7_empty_pool_aborts_before_matching
        (ingredients : jsstring) (selectedGenre : Genre)
        (data : option (list Recipe)) :
  ingredientList toLowerCase ingredients <> [] ->
  store selectedGenre = Resolved data None ->
  data = Some [] \/ data = None ->
  suggestMeal toLowerCase store ingredients selectedGenre
  = ([SetLoading true; SetError []; SetMealPlan None;
      FetchRecipes selectedGenre;
      SetError msgNoRecipes; SetLoading false; SetLoading false],
     Returned)
  /\ (forall c, ~ In (FindBestMatchCalled c)
                   (trace toLowerCase store ingredients selectedGenre))
  /\ (forall st,
        let st' := applyEvents st
                     (trace toLowerCase store ingredients selectedGenre) in
        error st' = msgNoRecipes
        /\ mealPlan st' = None /\ loading st' = false).
Proof.
  intros Hq Hstore Hdata.
  assert (E : suggestMeal toLowerCase store ingredients selectedGenre
              = ([SetLoading true; SetError []; SetMealPlan None;
                  FetchRecipes selectedGenre;
                  SetError msgNoRecipes; SetLoading false;
                  SetLoading false], Returned)).
  { unfold suggestMeal, awaitRecipes. rewrite Hstore.
    destruct (ingredientList toLowerCase ingredients) as [|t q];
      [congruence|].
    destruct Hdata as [-> | ->]; reflexivity. }
  unfold trace. rewrite E. simpl. repeat split.
  intros c H. repeat (destruct H as [H | H]; [discriminate|]). exact H.
Qed.

(** The remaining paths of [suggestMeal], for reference: a failed query
    reports the generic failure, and a non-empty pool is matched. *)
Lemma suggestMeal_fetch_error
      (ingredients : jsstring) (selectedGenre : Genre)
      (data : option (list Recipe)) (e : Err) :
  ingredientList toLowerCase ingredients <> [] ->
  store selectedGenre = Resolved data (Some e) ->
  suggestMeal toLowerCase store ingredients selectedGenre
  = ([SetLoading true; SetError []; SetMealPlan None;
      FetchRecipes selectedGenre;
      SetError msgFailure; ConsoleError e; SetLoading false], Normal tt).
Proof.
  intros Hq Hstore. unfold suggestMeal, awaitRecipes. rewrite Hstore.
  destruct (ingredientList toLowerCase ingredients) as [|t q];
    [congruence | reflexivity].
Qed.

Lemma suggestMeal_matches
      (ingredients : jsstring) (selectedGenre : Genre)
      (r : Recipe) (recipes : list Recipe) :
  ingredientList toLowerCase ingredients <> [] ->
  store selectedGenre = Resolved (Some (r :: recipes)) None ->
  suggestMeal toLowerCase store ingredients selectedGenre
  = ([SetLoading true; SetError []; SetMealPlan None;
      FetchRecipes selectedGenre;
      FindBestMatchCalled mainDishLabel; FindBestMatchCalled sideDishLabel;
      FindBestMatchCalled soupLabel;
      SetMealPlan
        (Some (selectMealPlan toLowerCase (r :: recipes)
                 (ingredientList toLowerCase ingredients)));
      SetLoading false], Normal tt).
Proof.
  intros Hq Hstore. unfold suggestMeal, awaitRecipes. rewrite Hstore.
  destruct (ingredientList toLowerCase ingredients) as [|t q];
    [congruence | reflexivity].
Qed.

End SuggestMealFacts.

(** ** The theorems on concrete inputs *)

Example lit_pork : lit "豚肉" = [35930; 32905]%N.
Proof. reflexivity. Qed.

Example lit_onion : lit "ONION" = [79; 78; 73; 79; 78]%N.
Proof. reflexivity. Qed.

Example split_example :
  split comma (lit "a,,b,") = [lit "a"; []; lit "b"; []].
Proof. reflexivity. Qed.

Example trim_example : trim (lit " 　豚 肉 ") = lit "豚 肉".
Proof. reflexivity. Qed.

(** A token that is a strict substring of an entry matches it. *)
Example substring_token_matches :
  matchCount lowerBasicLatin [lit "豚"] porkDish = 1.
Proof. reflexivity. Qed.

(** The entry is lower-cased at comparison time; the token is not. *)
Example entry_is_lowercased :
  matchCount lowerBasicLatin [lit "onion"] cabbageSide = 1
  /\ matchCount lowerBasicLatin [lit "ONION"] cabbageSide = 0.
Proof. split; reflexivity. Qed.

(** The end-to-end scenario: both main dishes score 1 and the first one of
    the pool is selected, whichever it is. *)
Example scenario_tie :
  map (matchCount lowerBasicLatin scenarioQuery) scenarioPool = [1; 1]
  /\ mainDish (selectMealPlan lowerBasicLatin scenarioPool scenarioQuery)
     = Some porkDish
  /\ mainDish (selectMealPlan lowerBasicLatin (rev scenarioPool)
                 scenarioQuery)
     = Some chickenDish.
Proof. repeat split; reflexivity. Qed.

Example tiePool_plan :
  selectMealPlan lowerBasicLatin tiePool scenarioQuery
  = {| mainDish := Some chickenDish; sideDish := Some cabbageSide;
       soup := None |}.
Proof. reflexivity. Qed.

Lemma C2_witness :
  In (mainDishLabel, Some chickenDish)
     (slots (selectMealPlan lowerBasicLatin tiePool scenarioQuery))
  /\ (forall r', In r' tiePool -> category r' = mainDishLabel ->
                 matchCount lowerBasicLatin scenarioQuery r'
                 <= matchCount lowerBasicLatin scenarioQuery chickenDish).
Proof.
  split.
  - left. reflexivity.
  - apply (@C2_selected_score_is_maximal lowerBasicLatin tiePool
             scenarioQuery mainDishLabel chickenDish).
    left. reflexivity.
Defined.

Lemma C3_witness :
  In (mainDishLabel, Some chickenDish)
     (slots (selectMealPlan lowerBasicLatin tiePool scenarioQuery)).
Proof.
  apply (@C3_earliest_maximum_is_selected lowerBasicLatin tiePool
           scenarioQuery mainDishLabel [cabbageSide; tofuDish]
           [porkDish; dessert] chickenDish).
  - left. reflexivity.
  - reflexivity.
  - reflexivity.
  - intros x [<- | [<- | [<- | [<- | [<- | []]]]]] Hc;
      try (vm_compute; lia); vm_compute in Hc; discriminate.
  - intros x [<- | [<- | []]] Hc;
      try (vm_compute; discriminate); vm_compute in Hc; discriminate.
Defined.

Lemma C5_witness :
  ingredientList lowerBasicLatin (lit " 豚肉 , ,ONION ")
  = [lit "豚肉"; lit "onion"]
  /\ ingredientList lowerBasicLatin (lit "a, B ,,c")
     = normalize_spec lowerBasicLatin (lit "a, B ,,c").
Proof.
  destruct (@C5_normalisation_splits_trims_lowercases lowerBasicLatin
              lowerBasicLatin_nil eq_refl eq_refl) as (Hspec & _ & Hex & _).
  split; [exact Hex | apply Hspec].
Defined.

Lemma C6_witness :
  ingredientList lowerBasicLatin (lit " , ,") = []
  /\ suggestMeal lowerBasicLatin scenarioStore (lit " , ,") Japanese
     = ([SetLoading true; SetError []; SetMealPlan None;
         SetError msgEnterIngredients; SetLoading false; SetLoading false],
        Returned).
Proof.
  split; [reflexivity|].
  apply (@C6_empty_query_aborts_before_fetch lowerBasicLatin scenarioStore
           (lit " , ,") Japanese).
  reflexivity.
Defined.

Lemma C7_witness :
  ingredientList lowerBasicLatin (lit "豚肉,じゃがいも") = scenarioQuery
  /\ suggestMeal lowerBasicLatin emptyStore (lit "豚肉,じゃがいも") Western
     = ([SetLoading true; SetError []; SetMealPlan None;
         FetchRecipes Western;
         SetError msgNoRecipes; SetLoading false; SetLoading false],
        Returned).
Proof.
  split; [reflexivity|].
  apply (@C7_empty_pool_aborts_before_matching lowerBasicLatin emptyStore
           (lit "豚肉,じゃがいも") Western (Some [])).
  - vm_compute. discriminate.
  - reflexivity.
  - left. reflexivity.
Defined.

Lemma C10_witness :
  incl [lit "豚肉"] scenarioQuery
  /\ matchCount lowerBasicLatin [lit "豚肉"] chickenDish
     <= matchCount lowerBasicLatin scenarioQuery chickenDish.
Proof.
  assert (H : incl [lit "豚肉"] scenarioQuery)
    by (intros t [<- | []]; left; reflexivity).
  split; [exact H|].
  apply (@C10_matchCount_monotone lowerBasicLatin [lit "豚肉"]
           scenarioQuery chickenDish H).
Defined.

(** * Further properties *)

(** ** Every path of [suggestMeal] *)

Section SuggestMealPaths.
Variable toLowerCase : jsstring -> jsstring.
Variable store : Genre -> FetchResult.
Variable ingredients : jsstring.
Variable selectedGenre : Genre.

Lemma suggestMeal_shape :
  RunShape toLowerCase ingredients selectedGenre (store selectedGenre)
           (suggestMeal toLowerCase store ingredients selectedGenre).
Proof.
  unfold suggestMeal, awaitRecipes.
  destruct (ingredientList toLowerCase ingredients) as [|t q] eqn:Eq.
  - apply RunEmptyQuery. exact Eq.
  - assert (Hne : ingredientList toLowerCase ingredients <> [])
      by (rewrite Eq; discriminate).
    destruct (store selectedGenre) as [reason | [[|r recipes]|] [e|]];
      simpl; try rewrite <- Eq; constructor; auto.
Qed.

Lemma messages_distinct :
  msgEnterIngredients <> msgNoRecipes
  /\ msgEnterIngredients <> msgFailure
  /\ msgNoRecipes <> msgFailure.
Proof.
  repeat split; intros E; vm_compute in E; discriminate E.
Qed.

(** X1: whatever the input and whatever the store answers, a run ends with
    the loading flag off, so the button is enabled again. *)
Theorem X1_loading_is_reset_on_every_path (st : UIState) :
  loading (applyEvents st
             (trace toLowerCase store ingredients selectedGenre)) = false.
Proof.
  unfold trace. destruct suggestMeal_shape; reflexivity.
Qed.

(** X2: no thrown value leaves [suggestMeal]: a rejected query and a
    reported fetch error are caught, and the run completes normally or
    through [return]. *)
Theorem X2_no_exception_escapes (e : Err) :
  snd (suggestMeal toLowerCase store ingredients selectedGenre) <> Threw e.
Proof.
  destruct suggestMeal_shape; discriminate.
Qed.

(** X3: after a run the screen holds either an error message and no plan,
    or a plan and no error message, never both and never neither; what was
    shown before the run does not matter. *)
Theorem X3_error_or_plan_never_both (st : UIState) :
  let st' := applyEvents st
               (trace toLowerCase store ingredients selectedGenre) in
  (error st' <> [] /\ mealPlan st' = None)
  \/ (error st' = [] /\ exists plan, mealPlan st' = Some plan).
Proof.
  unfold trace. destruct suggestMeal_shape; simpl;
    try (left; split; [discriminate | reflexivity]).
  right. split; [reflexivity | eexists; reflexivity].
Qed.

(** X5: a plan is shown after a run exactly when the query has a token and
    the store answered without error and with at least one recipe; the plan
    is then the matcher's plan for those recipes and the normalised
    query. *)
Theorem X5_plan_shown_iff_matched (st : UIState) (plan : MealPlan) :
  mealPlan (applyEvents st
              (trace toLowerCase store ingredients selectedGenre))
  = Some plan
  <->
  ingredientList toLowerCase ingredients <> []
  /\ exists r recipes,
      store selectedGenre = Resolved (Some (r :: recipes)) None
      /\ plan = selectMealPlan toLowerCase (r :: recipes)
                  (ingredientList toLowerCase ingredients).
Proof.
  unfold trace.
  destruct suggestMeal_shape as [resp Hq | e Hq | d e Hq | d Hq Hd | r rs Hq];
    simpl; split; try discriminate.
  - intros [Hne _]. contradiction.
  - intros [_ (r & rs & [=] & _)].
  - intros [_ (r & rs & [=] & _)].
  - intros [_ (r & rs & [= ->] & _)]. destruct Hd; discriminate.
  - intros [= <-]. split; [exact Hq|]. exists r, rs. auto.
  - intros [_ (r' & rs' & [= <- <-] & ->)]. reflexivity.
Qed.

(** X4: when the query has a token and the store query is rejected, or
    answers with an error, the run shows the generic failure message, logs
    the error to the console and shows no plan; [findBestMatch] is not
    called, even when the answer carries recipes beside the error. *)
Theorem X4_store_failure_is_reported (e : Err) :
  ingredientList toLowerCase ingredients <> [] ->
  store selectedGenre = Rejected e
  \/ (exists data, store selectedGenre = Resolved data (Some e)) ->
  suggestMeal toLowerCase store ingredients selectedGenre
  = ([SetLoading true; SetError []; SetMealPlan None;
      FetchRecipes selectedGenre;
      SetError msgFailure; ConsoleError e; SetLoading false], Normal tt)
  /\ (forall c, ~ In (FindBestMatchCalled c)
                   (trace toLowerCase store ingredients selectedGenre))
  /\ (forall st,
        let st' := applyEvents st
                     (trace toLowerCase store ingredients selectedGenre) in
        error st' = msgFailure /\ mealPlan st' = None).
Proof.
  intros Hq Hs.
  assert (E : suggestMeal toLowerCase store ingredients selectedGenre
              = ([SetLoading true; SetError []; SetMealPlan None;
                  FetchRecipes selectedGenre;
                  SetError msgFailure; ConsoleError e; SetLoading false],
                 Normal tt)).
  { pose proof suggestMeal_shape as H.
    destruct Hs as [Hs | [data Hs]]; rewrite Hs in H;
      inversion H; subst; try contradiction; reflexivity. }
  unfold trace. rewrite E. simpl. repeat split.
  intros c H. repeat (destruct H as [H | H]; [discriminate|]). exact H.
Qed.

(** X6: a run queries the store at most once, for the selected genre, and
    only after it has switched the loading flag on and cleared the error
    and the plan: whatever the screen showed before, while the query is
    pending it shows the spinner and nothing stale. *)
Theorem X6_single_fetch_after_reset
        (pre post : list Event) (g : Genre) :
  trace toLowerCase store ingredients selectedGenre
  = pre ++ FetchRecipes g :: post ->
  g = selectedGenre
  /\ (forall g', ~ In (FetchRecipes g') pre)
  /\ (forall g', ~ In (FetchRecipes g') post)
  /\ (forall st, applyEvents st pre
                 = {| loading := true; mealPlan := None; error := [] |}).
Proof.
  unfold trace.
  destruct suggestMeal_shape; simpl; intros Htr;
    repeat (destruct pre as [|? pre]; cbn [app] in Htr;
            [try discriminate Htr
            |first [injection Htr as <- Htr | discriminate Htr]]);
    injection Htr as <- <-;
    (split; [reflexivity | split; [|split; [|reflexivity]]]);
    intros g' Hin; cbn [In] in Hin;
    repeat (destruct Hin as [Hin | Hin]; [discriminate Hin|]); exact Hin.
Qed.

(** X9: the message left on the screen names the cause. The request for
    ingredients is shown exactly when no token survives normalisation; the
    message that no recipe was found exactly when the query has a token
    and the store answered without error and without recipes; the generic
    failure exactly when the query has a token and the store query was
    rejected or answered with an error. *)
Theorem X9_message_identifies_cause (st : UIState) :
  let shown := error (applyEvents st
                 (trace toLowerCase store ingredients selectedGenre)) in
  (shown = msgEnterIngredients
   <-> ingredientList toLowerCase ingredients = [])
  /\ (shown = msgNoRecipes
      <-> ingredientList toLowerCase ingredients <> []
          /\ (store selectedGenre = Resolved (Some []) None
              \/ store selectedGenre = Resolved None None))
  /\ (shown = msgFailure
      <-> ingredientList toLowerCase ingredients <> []
          /\ ((exists e, store selectedGenre = Rejected e)
              \/ (exists data e,
                     store selectedGenre = Resolved data (Some e)))).
Proof.
  destruct messages_distinct as (D1 & D2 & D3).
  unfold trace.
  destruct suggestMeal_shape as [resp Hq | e Hq | d e Hq | d Hq Hd | r rs Hq];
    cbn [fst applyEvents fold_left applyEvent error];
    (split; [|split]); split; intros Hx;
    try congruence;
    try solve [discriminate Hx];
    try solve [exfalso;
               match type of Hx with _ /\ _ => destruct Hx as [Hne Hs] end;
               first [exact (Hne Hq)
                     |repeat match type of Hs with
                             | _ \/ _ => destruct Hs as [Hs | Hs]
                             | exists _, _ => destruct Hs as [? Hs]
                             end; discriminate Hs]].
  - split; [exact Hq|]. left. exists e. reflexivity.
  - split; [exact Hq|]. right. exists d, e. reflexivity.
  - split; [exact Hq|]. destruct Hd as [-> | ->]; auto.
Qed.

End SuggestMealPaths.

(** ** More on normalisation *)

Lemma split_from_app (sep : code_unit) (cur a b : jsstring) :
  split_from sep cur (a ++ sep :: b)
  = split_from sep cur a ++ split sep b.
Proof.
  revert cur. induction a as [|c a IH]; intros cur; simpl.
  - rewrite N.eqb_refl. reflexivity.
  - destruct (c =? sep)%N; rewrite IH; reflexivity.
Qed.

Lemma trimStart_all_space (s : jsstring) :
  Forall (fun c => isWhiteSpace c = true) s -> trimStart s = [].
Proof.
  induction 1 as [|c s Hc _ IH]; simpl; [reflexivity|].
  rewrite Hc. exact IH.
Qed.

Lemma trim_nil_iff (s : jsstring) :
  trim s = [] <-> Forall (fun c => isWhiteSpace c = true) s.
Proof.
  split.
  - intros E. destruct (trim_decomp s) as (ws1 & ws2 & Hs & H1 & H2).
    rewrite Hs, E. apply Forall_app. split; assumption.
  - intros H. unfold trim. rewrite (trimStart_all_space H). reflexivity.
Qed.

Lemma split_from_pieces_Forall (P : code_unit -> Prop) (sep : code_unit)
      (cur s : jsstring) :
  (forall piece, In piece (split_from sep cur s) -> Forall P piece)
  <-> Forall P cur /\ Forall (fun c => P c \/ c = sep) s.
Proof.
  revert cur. induction s as [|c s IH]; intros cur; simpl.
  - split.
    + intros H. split; [|constructor].
      rewrite <- (rev_involutive cur). apply Forall_rev. apply H.
      left. reflexivity.
    + intros [H _] piece [<- | []]. apply Forall_rev. exact H.
  - destruct (N.eqb_spec c sep) as [-> | Hne].
    + split.
      * intros H. split.
        -- rewrite <- (rev_involutive cur). apply Forall_rev. apply H.
           left. reflexivity.
        -- constructor; [auto|]. apply (IH []). intros piece Hp.
           apply H. right. exact Hp.
      * intros [Hcur Hs] piece [<- | Hp].
        -- apply Forall_rev. exact Hcur.
        -- inversion Hs; subst. apply (proj2 (IH [])); auto.
    + rewrite IH. split.
      * intros [Hc Hs]. inversion Hc; subst. split; [assumption|].
        constructor; auto.
      * intros [Hcur Hs]. inversion Hs as [|? ? [Hc | Hc] Hs']; subst;
          [|contradiction]. split; [constructor|]; assumption.
Qed.

Lemma filter_nil_iff (A : Type) (f : A -> bool) (l : list A) :
  filter f l = [] <-> (forall x, In x l -> f x = false).
Proof.
  induction l as [|a l IH]; simpl.
  - split; [intros _ x [] | reflexivity].
  - destruct (f a) eqn:E.
    + split; [discriminate|]. intros H.
      rewrite (H a (or_introl eq_refl)) in E. discriminate.
    + rewrite IH. split.
      * intros H x [<- | Hx]; auto.
      * intros H x Hx. apply H. right. exact Hx.
Qed.

Section NormaliserMore.
Variable toLowerCase : jsstring -> jsstring.

Lemma ingredientList_tokens_nonempty (raw t : jsstring) :
  In t (ingredientList toLowerCase raw) -> t <> [].
Proof. intros H. apply In_ingredientList in H. apply H. Qed.

(** X7: the tokens of two inputs written one after the other with a comma
    between them are the tokens of the first followed by the tokens of the
    second. *)
Theorem X7_tokens_of_comma_joined_inputs (a b : jsstring) :
  ingredientList toLowerCase (a ++ comma :: b)
  = ingredientList toLowerCase a ++ ingredientList toLowerCase b.
Proof.
  unfold ingredientList, split.
  rewrite split_from_app, map_app, filter_app. reflexivity.
Qed.

(** X8: for a case mapping that sends the empty string, and no other, to
    the empty string, no token survives normalisation exactly when the
    input consists of commas and white space only (the empty input
    included). *)
Theorem X8_no_token_iff_only_commas_and_space (raw : jsstring) :
  (forall s, toLowerCase s = [] <-> s = []) ->
  (ingredientList toLowerCase raw = []
   <-> Forall (fun c => isWhiteSpace c = true \/ c = comma) raw).
Proof.
  intros Hnil. unfold ingredientList. rewrite filter_nil_iff.
  transitivity (forall piece, In piece (split comma raw) ->
                              Forall (fun c => isWhiteSpace c = true) piece).
  - split.
    + intros H piece Hp. apply trim_nil_iff, Hnil.
      specialize (H (toLowerCase (trim piece))
                    (in_map (fun i => toLowerCase (trim i)) _ _ Hp)).
      destruct (toLowerCase (trim piece)); [reflexivity | discriminate].
    + intros H t Ht. apply in_map_iff in Ht.
      destruct Ht as [piece [<- Hp]].
      rewrite (proj2 (Hnil _) (proj2 (trim_nil_iff _) (H piece Hp))).
      reflexivity.
  - unfold split. rewrite split_from_pieces_Forall. split.
    + intros [_ H]. exact H.
    + intros H. split; [constructor | exact H].
Qed.

(** X10: typing one of a recipe's ingredient entries, in any letter case
    and with any white space around it, gives the recipe a score of at
    least 1: if a comma-separated piece of the input, trimmed and
    lower-cased, equals the lower-cased entry, and that is not empty, the
    entry counts. *)
Theorem X10_typed_entry_scores (raw piece ing : jsstring) (r : Recipe) :
  In piece (split comma raw) ->
  In ing (ingredients r) ->
  toLowerCase (trim piece) = toLowerCase ing ->
  toLowerCase ing <> [] ->
  1 <= matchCount toLowerCase (ingredientList toLowerCase raw) r.
Proof.
  intros Hp Hing Heq Hne.
  assert (Hm : ingredientMatches toLowerCase
                 (ingredientList toLowerCase raw) ing = true).
  { apply ingredientMatches_spec. exists (toLowerCase ing). split.
    - apply In_ingredientList. split; [exact Hne|]. exists piece. auto.
    - exists [], []. rewrite app_nil_r. reflexivity. }
  unfold matchCount.
  assert (Hin : In ing (filter (ingredientMatches toLowerCase
                                  (ingredientList toLowerCase raw))
                               (ingredients r)))
    by (apply filter_In; auto).
  destruct (filter _ (ingredients r)); [destruct Hin | simpl; lia].
Qed.

(** X11: no token of a normalised query is empty, so an ingredient entry
    whose lower-cased text is empty never counts towards a score, whatever
    was typed. *)
Theorem X11_empty_entry_never_counts (raw ing : jsstring) :
  toLowerCase ing = [] ->
  ingredientMatches toLowerCase (ingredientList toLowerCase raw) ing = false.
Proof.
  intros E. unfold ingredientMatches. rewrite E.
  apply not_true_is_false. intros H. apply existsb_exists in H.
  destruct H as [t [Ht Hinc]].
  apply ingredientList_tokens_nonempty in Ht.
  destruct t; [congruence | discriminate].
Qed.

End NormaliserMore.

(** ** More on the matcher *)

Lemma insert_map (A B : Type) (g : A -> B)
      (cmpA : A -> A -> Z) (cmpB : B -> B -> Z) (x : A) (l : list A) :
  (forall a b, cmpB (g a) (g b) = cmpA a b) ->
  insert cmpB (g x) (map g l) = map g (insert cmpA x l).
Proof.
  intros H. induction l as [|y l IH]; simpl; [reflexivity|].
  rewrite H. destruct (cmpA x y <=? 0)%Z; simpl; [reflexivity|].
  rewrite IH. reflexivity.
Qed.

Lemma sort_map (A B : Type) (g : A -> B)
      (cmpA : A -> A -> Z) (cmpB : B -> B -> Z) (l : list A) :
  (forall a b, cmpB (g a) (g b) = cmpA a b) ->
  sort cmpB (map g l) = map g (sort cmpA l).
Proof.
  intros H. induction l as [|x l IH]; simpl; [reflexivity|].
  rewrite IH. apply insert_map. exact H.
Qed.

Lemma filter_map_comm (A B : Type) (g : A -> B) (p : B -> bool)
      (l : list A) :
  filter p (map g l) = map g (filter (fun a => p (g a)) l).
Proof.
  induction l as [|x l IH]; simpl; [reflexivity|].
  destruct (p (g x)); simpl; rewrite IH; reflexivity.
Qed.

Lemma labels_distinct :
  mainDishLabel <> sideDishLabel
  /\ mainDishLabel <> soupLabel
  /\ sideDishLabel <> soupLabel.
Proof.
  repeat split; intros E; vm_compute in E; discriminate E.
Qed.

Section MatcherMore.
Variable toLowerCase : jsstring -> jsstring.

Lemma FirstBest_findBestMatch (pool : list Recipe) (q : list jsstring)
      (c : jsstring) (r : Recipe) :
  FirstBest toLowerCase pool q c r ->
  findBestMatch toLowerCase pool q c = Some r.
Proof.
  intros (b & a & Hpool & Hc & Hb & Ha).
  destruct (findBestMatch toLowerCase pool q c) as [r'|] eqn:E.
  - apply findBestMatch_Some in E.
    destruct E as (b' & a' & Hpool' & Hc' & Hb' & Ha').
    assert (Hsame : b' ++ r' :: a' = b ++ r :: a) by congruence.
    destruct (@FirstBest_unique toLowerCase q c b' a' b a r' r
                Hsame Hc' Hc Hb' Ha' Hb Ha) as (_ & -> & _).
    reflexivity.
  - rewrite findBestMatch_None in E. exfalso. apply (E r); [|exact Hc].
    subst pool. apply in_or_app. right. left. reflexivity.
Qed.

(** X12: the matcher reads only [category] and [ingredients]. Rewriting
    the other fields of every recipe of the pool ([id], [name], [genre],
    [steps], [created_at]) selects the recipe at the same place: the slot
    holds the rewritten form of the recipe it held before. In particular
    the matcher does not filter by genre. *)
Theorem X12_matcher_reads_category_and_ingredients_only
        (f : Recipe -> Recipe) (pool : list Recipe)
        (q : list jsstring) (c : jsstring) :
  (forall r, category (f r) = category r) ->
  (forall r, ingredients (f r) = ingredients r) ->
  findBestMatch toLowerCase (map f pool) q c
  = option_map f (findBestMatch toLowerCase pool q c).
Proof.
  intros Hc Hi. unfold findBestMatch.
  rewrite filter_map_comm, map_map.
  rewrite (filter_ext (fun a => JS.eqb (category (f a)) c)
                      (fun a => JS.eqb (category a) c))
    by (intros a; rewrite Hc; reflexivity).
  set (l := filter (fun a => JS.eqb (category a) c) pool).
  set (h := fun s : Scored => {| recipe := f (recipe s); score := score s |}).
  rewrite (map_ext (fun x => scoreRecipe toLowerCase q (f x))
                   (fun x => h (scoreRecipe toLowerCase q x)))
    by (intros r; unfold h, scoreRecipe, matchCount; simpl;
        rewrite Hi; reflexivity).
  rewrite <- (map_map (scoreRecipe toLowerCase q) h).
  rewrite (@sort_map _ _ h byScoreDesc byScoreDesc) by reflexivity.
  destruct (sort byScoreDesc (map (scoreRecipe toLowerCase q) l));
    reflexivity.
Qed.

(** X13: the order of the query tokens does not matter: two queries that
    are permutations of one another give the same plan. *)
Theorem X13_plan_invariant_under_token_order
        (pool : list Recipe) (q q' : list jsstring) :
  Permutation q q' ->
  selectMealPlan toLowerCase pool q = selectMealPlan toLowerCase pool q'.
Proof.
  intros Hp. apply selectMealPlan_ext. intros t. split.
  - apply Permutation_in. exact Hp.
  - apply Permutation_in. symmetry. exact Hp.
Qed.

(** X14: no recipe fills two slots of a plan. *)
Theorem X14_slots_hold_different_recipes
        (pool : list Recipe) (q : list jsstring) (r : Recipe) :
  let plan := selectMealPlan toLowerCase pool q in
  ~ (mainDish plan = Some r /\ sideDish plan = Some r)
  /\ ~ (mainDish plan = Some r /\ soup plan = Some r)
  /\ ~ (sideDish plan = Some r /\ soup plan = Some r).
Proof.
  destruct labels_distinct as (D1 & D2 & D3).
  simpl. repeat split; intros [H1 H2];
    apply findBestMatch_Some, FirstBest_In in H1;
    apply findBestMatch_Some, FirstBest_In in H2;
    destruct H1 as [_ H1], H2 as [_ H2]; congruence.
Qed.

(** X15: the best match of two pools put one after the other is the better
    of their two best matches, the first pool winning ties; a pool without
    a candidate leaves the choice to the other. *)
Theorem X15_best_match_of_appended_pools
        (p1 p2 : list Recipe) (q : list jsstring) (c : jsstring) :
  findBestMatch toLowerCase (p1 ++ p2) q c
  = betterOf toLowerCase q (findBestMatch toLowerCase p1 q c)
                           (findBestMatch toLowerCase p2 q c).
Proof.
  destruct (findBestMatch toLowerCase p1 q c) as [r1|] eqn:E1;
    destruct (findBestMatch toLowerCase p2 q c) as [r2|] eqn:E2; simpl.
  - apply findBestMatch_Some in E1, E2.
    assert (M1 := FirstBest_max E1). assert (M2 := FirstBest_max E2).
    destruct E1 as (b1 & a1 & -> & Hc1 & Hb1 & Ha1).
    destruct E2 as (b2 & a2 & -> & Hc2 & Hb2 & Ha2).
    destruct (Nat.leb_spec (matchCount toLowerCase q r2)
                           (matchCount toLowerCase q r1)) as [Hle | Hlt];
      apply FirstBest_findBestMatch.
    + exists b1, (a1 ++ b2 ++ r2 :: a2). repeat split; auto.
      * repeat rewrite <- app_assoc. reflexivity.
      * intros x Hx Hxc. apply in_app_or in Hx. destruct Hx as [Hx | Hx].
        -- apply Ha1; assumption.
        -- specialize (M2 x Hx Hxc). lia.
    + exists ((b1 ++ r1 :: a1) ++ b2), a2. repeat split; auto.
      * repeat rewrite <- app_assoc. reflexivity.
      * intros x Hx Hxc. apply in_app_or in Hx. destruct Hx as [Hx | Hx].
        -- specialize (M1 x Hx Hxc). lia.
        -- apply Hb2; assumption.
  - apply findBestMatch_Some in E1. rewrite findBestMatch_None in E2.
    destruct E1 as (b1 & a1 & -> & Hc1 & Hb1 & Ha1).
    apply FirstBest_findBestMatch.
    exists b1, (a1 ++ p2). repeat split; auto.
    + repeat rewrite <- app_assoc. reflexivity.
    + intros x Hx Hxc. apply in_app_or in Hx. destruct Hx as [Hx | Hx].
      * apply Ha1; assumption.
      * destruct (E2 x Hx Hxc).
  - apply findBestMatch_Some in E2. rewrite findBestMatch_None in E1.
    destruct E2 as (b2 & a2 & -> & Hc2 & Hb2 & Ha2).
    apply FirstBest_findBestMatch.
    exists (p1 ++ b2), a2. repeat split; auto.
    + repeat rewrite <- app_assoc. reflexivity.
    + intros x Hx Hxc. apply in_app_or in Hx. destruct Hx as [Hx | Hx].
      * destruct (E1 x Hx Hxc).
      * apply Hb2; assumption.
  - rewrite findBestMatch_None in *. intros x Hx.
    apply in_app_or in Hx. destruct Hx as [Hx | Hx]; auto.
Qed.

End MatcherMore.

(** X16: the array after [scored.sort((a, b) => b.score - a.score)] holds
    the same elements, ranked by descending score, with elements of equal
    score in the order they had; it is the only array with these
    properties. *)
Theorem X16_sort_ranks_by_descending_score_stably (scored : list Scored) :
  Permutation scored (sort byScoreDesc scored)
  /\ StronglySorted (fun x y => score y <= score x)
                    (sort byScoreDesc scored)
  /\ (forall k, filter (fun x => score x =? k) (sort byScoreDesc scored)
                = filter (fun x => score x =? k) scored)
  /\ (forall l', StableSortOf scored l' -> l' = sort byScoreDesc scored).
Proof.
  split; [apply sort_perm | split; [apply sort_sorted | split]].
  - intros k. apply sort_stable.
  - intros l'. apply stable_sort_is_sort.
Qed.

(** ** The rendered results *)

Section RenderFacts.
Variable toLowerCase : jsstring -> jsstring.



End RenderFacts.

(** ** The further properties on concrete inputs *)

Lemma X4_witness :
  suggestMeal lowerBasicLatin failingStore (lit "豚肉") Japanese
  = ([SetLoading true; SetError []; SetMealPlan None;
      FetchRecipes Japanese;
      SetError msgFailure; ConsoleError (lit "permission denied");
      SetLoading false], Normal tt).
Proof.
  apply (@X4_store_failure_is_reported lowerBasicLatin failingStore
           (lit "豚肉") Japanese (lit "permission denied")).
  - vm_compute. discriminate.
  - right. exists None. reflexivity.
Defined.

Lemma X6_witness :
  trace lowerBasicLatin emptyStore (lit "豚肉") Western
  = [SetLoading true; SetError []; SetMealPlan None]
      ++ FetchRecipes Western
      :: [SetError msgNoRecipes; SetLoading false; SetLoading false]
  /\ applyEvents
       {| loading := false; mealPlan := None; error := msgFailure |}
       [SetLoading true; SetError []; SetMealPlan None]
     = {| loading := true; mealPlan := None; error := [] |}.
Proof.
  split; [reflexivity|].
  apply (@X6_single_fetch_after_reset lowerBasicLatin emptyStore
           (lit "豚肉") Western
           [SetLoading true; SetError []; SetMealPlan None]
           [SetError msgNoRecipes; SetLoading false; SetLoading false]
           Western).
  reflexivity.
Defined.

Lemma X8_witness : ingredientList lowerBasicLatin (lit " , 　,") = [].
Proof.
  apply (@X8_no_token_iff_only_commas_and_space lowerBasicLatin
           (lit " , 　,") lowerBasicLatin_nil).
  vm_compute.
  repeat (constructor; [first [left; reflexivity | right; reflexivity]|]).
  constructor.
Defined.

Lemma X10_witness :
  1 <= matchCount lowerBasicLatin
         (ingredientList lowerBasicLatin (lit "豚肉, ONION ")) cabbageSide.
Proof.
  apply (@X10_typed_entry_scores lowerBasicLatin (lit "豚肉, ONION ")
           (lit " ONION ") (lit "Onion") cabbageSide).
  - right. left. reflexivity.
  - right. left. reflexivity.
  - reflexivity.
  - vm_compute. discriminate.
Defined.

Lemma X11_witness :
  ingredientMatches lowerBasicLatin
    (ingredientList lowerBasicLatin (lit "豚肉,,")) [] = false.
Proof.
  apply (@X11_empty_entry_never_counts lowerBasicLatin (lit "豚肉,,") []).
  reflexivity.
Defined.

Lemma X12_witness :
  findBestMatch lowerBasicLatin
    (map (withOtherFields [] [] (genreLabel Western) [] []) tiePool)
    scenarioQuery mainDishLabel
  = option_map (withOtherFields [] [] (genreLabel Western) [] [])
      (findBestMatch lowerBasicLatin tiePool scenarioQuery mainDishLabel).
Proof.
  apply (@X12_matcher_reads_category_and_ingredients_only lowerBasicLatin
           (withOtherFields [] [] (genreLabel Western) [] []) tiePool
           scenarioQuery mainDishLabel).
  - intros r. reflexivity.
  - intros r. reflexivity.
Defined.

Lemma X13_witness :
  selectMealPlan lowerBasicLatin tiePool [lit "豚肉"; lit "じゃがいも"]
  = selectMealPlan lowerBasicLatin tiePool [lit "じゃがいも"; lit "豚肉"].
Proof.
  apply (@X13_plan_invariant_under_token_order lowerBasicLatin tiePool
           [lit "豚肉"; lit "じゃがいも"] [lit "じゃがいも"; lit "豚肉"]).
  apply perm_swap.
Defined.
